(** * video-perception: the [mediaPerception] action of a conversational agent

    A shallow embedding of [src/video-perception.tsx] and the properties of
    its action handler: attachment resolution, type routing, the backend
    call, question/answer assembly, commit and resumption.

    Conventions of the embedding
    - JavaScript strings are [string] (bytes of the UTF-8 text).
    - An optional property ([url?: string], [attachments?: ...]) is an
      [option]; [undefined] is [None].
    - The handler is an [async] function whose effects on the outside world
      are calls: [console.log], [console.warn], [describeJson], [e.commit],
      [agent.act].  It is embedded in a state-and-exception monad whose
      state holds the triggering message (which the handler mutates) and the
      trace of calls made so far, oldest first.  A rejected [await] is an
      exception of the monad. *)

From stdpp Require Import base list strings pretty.
From Stdlib Require Import Ascii String List Lia.
Import ListNotations.

Local Open Scope string_scope.
Set Warnings "-register-all".

(** ** Characters that cannot be written inside a string literal *)

Definition dquote : ascii := "034"%char.
Definition newline : ascii := "010"%char.
Definition nl : string := String newline EmptyString.

(** [lines.join('\n')] *)
Fixpoint joinWith (sep : string) (parts : list string) : string :=
  match parts with
  | [] => EmptyString
  | [p] => p
  | p :: rest => p +:+ sep +:+ joinWith sep rest
  end.

(** ** JSON.stringify(value, null, 2)

    The part of ECMA-262 [JSON.stringify] the component uses: strings,
    arrays, plain objects and [undefined], with a two-space gap. *)
Module Json.

Inductive value : Type :=
| Undefined
| Str (s : string)
| Arr (items : list value)
| Obj (props : list (string * value)).

Definition hexDigit (n : nat) : ascii :=
  if (n <? 10)%nat then ascii_of_nat (48 + n)%nat else ascii_of_nat (87 + n)%nat.

(** QuoteJSONString, one code unit *)
Definition escapeChar (c : ascii) : string :=
  let n := nat_of_ascii c in
  if (n =? 34)%nat then String "\" (String dquote EmptyString)
  else if (n =? 92)%nat then "\\"
  else if (n =? 8)%nat then "\b"
  else if (n =? 9)%nat then "\t"
  else if (n =? 10)%nat then "\n"
  else if (n =? 12)%nat then "\f"
  else if (n =? 13)%nat then "\r"
  else if (n <? 32)%nat then
    "\u00" +:+ String (hexDigit (n / 16)%nat) (String (hexDigit (n mod 16)%nat) EmptyString)
  else String c EmptyString.

Fixpoint escape (s : string) : string :=
  match s with
  | EmptyString => EmptyString
  | String c rest => escapeChar c +:+ escape rest
  end.

Definition quote (s : string) : string :=
  String dquote (escape s +:+ String dquote EmptyString).

Definition gap : string := "  ".

(** SerializeJSONProperty: [None] is the [undefined] result.  An
    [undefined] array element is written [null]; an [undefined] property
    of an object is left out. *)
Fixpoint serialize (indent : string) (v : value) : option string :=
  match v with
  | Undefined => None
  | Str s => Some (quote s)
  | Arr items =>
      let stepback := indent in
      let indent := indent +:+ gap in
      let partial :=
        (fix elements (l : list value) : list string :=
           match l with
           | [] => []
           | x :: rest =>
               match serialize indent x with
               | None => "null"
               | Some strP => strP
               end :: elements rest
           end) items in
      match partial with
      | [] => Some "[]"
      | _ =>
          Some ("[" +:+ nl +:+ indent +:+ joinWith ("," +:+ nl +:+ indent) partial
                +:+ nl +:+ stepback +:+ "]")
      end
  | Obj props =>
      let stepback := indent in
      let indent := indent +:+ gap in
      let partial :=
        (fix members (l : list (string * value)) : list string :=
           match l with
           | [] => []
           | (k, x) :: rest =>
               match serialize indent x with
               | None => members rest
               | Some strP => (quote k +:+ ": " +:+ strP) :: members rest
               end
           end) props in
      match partial with
      | [] => Some "{}"
      | _ =>
          Some ("{" +:+ nl +:+ indent +:+ joinWith ("," +:+ nl +:+ indent) partial
                +:+ nl +:+ stepback +:+ "}")
      end
  end.

(** [JSON.stringify(v, null, 2)] for a [v] that is not [undefined] *)
Definition stringify (v : value) : string :=
  match serialize EmptyString v with
  | Some s => s
  | None => "undefined"
  end.

Definition ofOption (o : option string) : value :=
  match o with
  | Some s => Str s
  | None => Undefined
  end.

End Json.

(** ** Data model

    [Attachment], [ActionMessage], [AgentObject] and [PendingActionEvent]
    are declared in [../../types], outside this component; only the
    properties the component reads or writes are kept. *)

Record Attachment : Type := mkAttachment {
  a_id : string;
  a_type : string;
  a_url : option string;
}.

Record Message : Type := mkMessage {
  attachments : option (list Attachment);
}.

(** A [Conversation] value is the message cache as it stands when it is
    read; the render and an invocation of the handler each read it once. *)
Record Conversation : Type := mkConversation {
  messageCache : list Message;
}.

Definition getMessages (conversation : Conversation) : list Message :=
  messageCache conversation.

Record AgentObject : Type := mkAgentObject {
  name : string;
  bio : string;
}.

(** [e.data.agent]: the acting agent, whose [agent] property is the
    persona handed to the backend and whose [act] method is the call
    [AgentAct] below. *)
Record ActiveAgent : Type := mkActiveAgent {
  agent : AgentObject;
}.

Record QAPair : Type := mkQAPair {
  q : string;
  a : option string;
}.

(** [e.data.message.args]: [id] and [questions] come from the agent,
    [queries] is the property the handler adds. *)
Record ActionArgs : Type := mkArgs {
  args_id : string;
  questions : list string;
  queries : option (list QAPair);
}.

Record ActionMessage : Type := mkActionMessage {
  args : ActionArgs;
}.

Record ActOptions : Type := mkActOptions {
  excludeActions : list string;
}.

Record AnswersObject : Type := mkAnswers {
  answers : list string;
}.

Definition Error : Type := string.

(** ** Calls to the outside world *)

Inductive Diagnostic : Type :=
| InvalidId (attachmentId : string) (attachments : list Attachment)
| NoUrl (attachmentId : string) (attachments : list Attachment) (attachment : Attachment)
| NoSpec (type : string) (mediaPerceptionSpecs : list (list string)).

Inductive Call : Type :=
| ConsoleLog (label : string) (questions answers : list string)
| ConsoleWarn (label : string) (info : Diagnostic)
| DescribeJson (url prompt jwt : string)
| Commit (message : ActionMessage)
| AgentAct (text : option string) (opts : option ActOptions).

(** ** The monad of the handler *)

Record World : Type := mkWorld {
  message : ActionMessage;
  calls : list Call;
}.

Inductive Completion (A : Type) : Type :=
| Returned (x : A)
| Thrown (err : Error).
Arguments Returned {A} x.
Arguments Thrown {A} err.

Definition Async (A : Type) : Type := World -> Completion A * World.

Definition ret {A} (x : A) : Async A := fun w => (Returned x, w).

Definition bind {A B} (c : Async A) (k : A -> Async B) : Async B :=
  fun w =>
    match c w with
    | (Returned x, w') => k x w'
    | (Thrown err, w') => (Thrown err, w')
    end.

Declare Scope async_scope.
Delimit Scope async_scope with async.
Notation "x <- c ;; k" := (bind c (fun x => k))
  (at level 100, c at next level, right associativity) : async_scope.
Notation "c ;; k" := (bind c (fun _ => k))
  (at level 100, right associativity) : async_scope.

Definition emit (c : Call) : Async unit :=
  fun w => (Returned tt, mkWorld (message w) (calls w ++ [c])%list).

(** [await p] for a call [c] whose promise settles as [settled] *)
Definition await {A} (c : Call) (settled : Error + A) : Async A :=
  fun w =>
    let w' := mkWorld (message w) (calls w ++ [c])%list in
    match settled with
    | inl err => (Thrown err, w')
    | inr x => (Returned x, w')
    end.

Definition readMessage : Async ActionMessage :=
  fun w => (Returned (message w), w).

(** [(e.data.message.args as any).queries = qa] *)
Definition assignQueries (qa : list QAPair) : Async unit :=
  fun w =>
    let old := args (message w) in
    (Returned tt,
     mkWorld (mkActionMessage (mkArgs (args_id old) (questions old) (Some qa)))
             (calls w)).

Definition consoleLog (label : string) (qs ans : list string) : Async unit :=
  emit (ConsoleLog label qs ans).
Definition consoleWarn (label : string) (info : Diagnostic) : Async unit :=
  emit (ConsoleWarn label info).
Definition act (text : option string) (opts : option ActOptions) : Async unit :=
  emit (AgentAct text opts).

(** [e]: the pending action.  [e.data.message] is the [message] of the
    [World]; [e.commit()] persists it and settles as the host decides. *)
Record PendingActionEvent : Type := mkEvent {
  data_agent : ActiveAgent;
  commit : ActionMessage -> Error + unit;
}.

Record PerceptionSpec : Type := mkSpec {
  types : list string;
  describe : string -> list string -> AgentObject -> string -> Async (list string);
}.

Record ActionProps : Type := mkAction {
  action_type : string;
  description : string;
  examples : list (string * list string);
  handler : PendingActionEvent -> Async unit;
}.

(** What [VideoPerceptionInner] returns: [undefined] without a
    conversation, [false] when no attachment is available, the [Action]
    element otherwise. *)
Inductive Rendered : Type :=
| RenderedUndefined
| RenderedFalse
| RenderedAction (props : ActionProps).

(** ** Text produced by the [dedent] templates

    [dedent] is the npm package: it joins the line after a trailing
    backslash, unescapes back-ticks, removes the common indentation and
    trims the result.  The three templates of the component are given
    here already dedented; a name or bio that itself spans several lines
    is substituted as it is. *)

Definition personaPrompt (persona : AgentObject) : string :=
  joinWith nl
    [ "Respond as if you are role playing the following character:";
      "Name: " +:+ name persona;
      "Bio: " +:+ bio persona;
      EmptyString;
      "Answer the following questions about the image, as JSON array.";
      "Each question string in the input array should be answered with a string in the output array." ].

Definition descriptionHead : string :=
  joinWith nl
    [ "Query multimedia content using natural language questions + answers.";
      "The questions should be short and specific.";
      "Use this whenever you need to know more information about a piece of media, like an image attachment.";
      EmptyString;
      "The available media are:";
      "```" ].

Definition descriptionTail : string := "```".

Definition discoveredHead : string :=
  "Your character looked at an attachment and discovered the following:".

(** ** JSON views of the component's values *)

Definition questionsJson (qs : list string) : Json.value :=
  Json.Obj [("questions", Json.Arr (map Json.Str qs))].

Definition qaJson (p : QAPair) : Json.value :=
  Json.Obj [("q", Json.Str (q p)); ("a", Json.ofOption (a p))].

(** [{ attachmentId: attachment.id, ...qa }]: spreading the array [qa]
    defines the properties "0", "1", ...; an object lists its integer keys
    first, in ascending order, and its other keys after them in creation
    order, so [attachmentId] is written last. *)
Definition discoveredJson (attachmentId : string) (qa : list QAPair) : Json.value :=
  Json.Obj (imap (fun index p => (pretty index, qaJson p)) qa
            ++ [("attachmentId", Json.Str attachmentId)])%list.

(** Modelled from the spec: the properties of an [Attachment] (its type
    is declared outside this component) are [id], [type] and the optional
    [url], written in that order. *)
Definition attachmentJson (attachment : Attachment) : Json.value :=
  Json.Obj [("id", Json.Str (a_id attachment));
            ("type", Json.Str (a_type attachment));
            ("url", Json.ofOption (a_url attachment))].

(** ** The component *)

(** [array.includes(x)] on an array of strings *)
Definition includes (l : list string) (x : string) : bool :=
  existsb (String.eqb x) l.

(** [type.replace(/\+[\s\S]*$/, '')]: the leftmost match starts at the
    first '+' and runs to the end of the string. *)
Fixpoint typeClean (type : string) : string :=
  match type with
  | EmptyString => EmptyString
  | String c rest => if Ascii.eqb c "+" then EmptyString else String c (typeClean rest)
  end.

Definition makeQa (questions answers : list string) : list QAPair :=
  imap (fun index q => let a := answers !! index in mkQAPair q a) questions.

(** The two nested [for ... of] loops of the handler: every attachment
    is pushed on [attachments] and recorded with its message in
    [attachmentsToMessagesMap] (which is written and never read). *)
Definition indexAttachments (messages : list Message)
  : list Attachment * list (Attachment * Message) :=
  fold_left
    (fun acc message =>
       match attachments message with
       | Some own =>
           fold_left
             (fun acc attachment =>
                ((fst acc ++ [attachment])%list, (snd acc ++ [(attachment, message)])%list))
             own acc
       | None => acc
       end)
    messages ([], []).

Section Component.

(** [describeJson] of [util/vision.mjs]: the description service, which
    validates its reply against the answers format or rejects. *)
Variable describeJson : string -> string -> string -> Error + AnswersObject.

(** [collectAttachments] of [util/message-utils] *)
Variable collectAttachments : list Message -> list Attachment.

Definition imageDescribe (url : string) (questions : list string)
    (persona : AgentObject) (jwt : string) : Async (list string) :=
  (let prompt := personaPrompt persona +:+ Json.stringify (questionsJson questions) in
   answersObject <- await (DescribeJson url prompt jwt) (describeJson url prompt jwt) ;;
   ret (answers answersObject))%async.

Definition videoPerceptionSpecs : list PerceptionSpec :=
  [ mkSpec ["image/jpeg"; "image/png"; "image/webp"] imageDescribe ].

Definition supportedVideoPerceptionTypes : list string :=
  flat_map types videoPerceptionSpecs.

Definition actionHandler (conversation : Conversation) (authToken : string)
    (e : PendingActionEvent) : Async unit :=
  (message0 <- readMessage ;;
   let agent0 := data_agent e in
   let attachmentId := args_id (args message0) in
   let questions := questions (args message0) in
   let retry := act None None in
   let makeQa := makeQa in
   let attachments := fst (indexAttachments (getMessages conversation)) in
   match find (fun attachment => String.eqb (a_id attachment) attachmentId) attachments with
   | Some attachment =>
       let type := a_type attachment in
       let noUrl :=
         (consoleWarn "warning: attachment has no url"
            (NoUrl attachmentId attachments attachment) ;;
          retry) in
       match a_url attachment with
       | Some (String _ _ as url) =>
           match find (fun spec => includes (types spec) type) videoPerceptionSpecs with
           | Some mediaPerceptionSpec =>
               answers <- describe mediaPerceptionSpec url questions (agent agent0) authToken ;;
               consoleLog "media perception qa" questions answers ;;
               let qa := makeQa questions answers in
               assignQueries qa ;;
               (message1 <- readMessage ;;
                await (Commit message1) (commit e message1)) ;;
               act (Some (discoveredHead +:+ nl
                          +:+ Json.stringify (discoveredJson (a_id attachment) qa)))
                   (Some (mkActOptions ["mediaPerception"]))
           | None =>
               consoleWarn "warning: no media perception spec found for type"
                 (NoSpec type (map types videoPerceptionSpecs)) ;;
               retry
           end
       | Some EmptyString => noUrl
       | None => noUrl
       end
   | None =>
       consoleWarn "warning: model generated invalid id, retrying"
         (InvalidId attachmentId attachments) ;;
       retry
   end)%async.

(** The [attachments] of the render: what is offered to the agent. *)
Definition availableAttachments (conversation : Conversation) : list Attachment :=
  let messages := getMessages conversation in
  List.filter (fun attachment =>
                 let typeClean := typeClean (a_type attachment) in
                 includes supportedVideoPerceptionTypes typeClean)
              (collectAttachments messages).

Definition VideoPerceptionInner (conversation : option Conversation)
    (authToken randomId : string) : Rendered :=
  match conversation with
  | Some conversation =>
      let attachments := availableAttachments conversation in
      if (0 <? length attachments)%nat then
        RenderedAction
          (mkAction
             "mediaPerception"
             (descriptionHead +:+ nl
              +:+ Json.stringify (Json.Arr (map attachmentJson attachments)) +:+ nl
              +:+ descriptionTail)
             [ (randomId, ["Describe the image."]);
               (randomId, ["What are the dimensions of the subject, in meters?"]);
               (randomId, ["Describe the people in the image."; "What's the mood/aesthetic?"]) ]
             (actionHandler conversation authToken))
      else RenderedFalse
  | None => RenderedUndefined
  end.

Definition VideoPerception := VideoPerceptionInner.

End Component.

(** ** Vocabulary of the statements *)

(** The attachments of a conversation, message by message. *)
Definition ownAttachments (m : Message) : list Attachment :=
  match attachments m with
  | Some own => own
  | None => []
  end.

Definition conversationAttachments (conversation : Conversation) : list Attachment :=
  flat_map ownAttachments (getMessages conversation).

(** The attachment the handler works on: the [attachments.find] of
    [actionHandler]. *)
Definition resolve (conversation : Conversation) (attachmentId : string)
  : option Attachment :=
  find (fun attachment => String.eqb (a_id attachment) attachmentId)
       (fst (indexAttachments (getMessages conversation))).

(** [if (url)]: a url that is absent or empty is falsy. *)
Definition hasUrl (attachment : Attachment) : bool :=
  match a_url attachment with
  | Some (String _ _) => true
  | _ => false
  end.

(** Does the string hold a '+'? *)
Fixpoint hasPlus (s : string) : bool :=
  match s with
  | EmptyString => false
  | String c rest => if Ascii.eqb c "+" then true else hasPlus rest
  end.

(** The text of the description for a list of offered attachments. *)
Definition descriptionOf (offered : list Attachment) : string :=
  descriptionHead +:+ nl
  +:+ Json.stringify (Json.Arr (map attachmentJson offered)) +:+ nl
  +:+ descriptionTail.

Definition isAct (c : Call) : bool :=
  match c with AgentAct _ _ => true | _ => false end.
Definition isRetry (c : Call) : bool :=
  match c with AgentAct None None => true | _ => false end.
Definition isDescribe (c : Call) : bool :=
  match c with DescribeJson _ _ _ => true | _ => false end.
Definition isCommit (c : Call) : bool :=
  match c with Commit _ => true | _ => false end.

Definition countCalls (p : Call -> bool) (trace : list Call) : nat :=
  length (filter p trace).

Section Vocabulary.

Variable describeJson : string -> string -> string -> Error + AnswersObject.

(** The spec the handler picks: the [videoPerceptionSpecs.find] of
    [actionHandler]. *)
Definition route (type : string) : option PerceptionSpec :=
  find (fun spec => includes (types spec) type) (videoPerceptionSpecs describeJson).

(** One invocation of the handler on a fresh trace. *)
Definition invoke (conversation : Conversation) (authToken : string)
    (e : PendingActionEvent) (request : ActionMessage) : Completion unit * World :=
  actionHandler describeJson conversation authToken e (mkWorld request []).

(** The three malformed requests. *)
Inductive Malformed (conversation : Conversation) (attachmentId : string) : Prop :=
| unknown_id :
    (forall attachment, In attachment (conversationAttachments conversation) ->
                        a_id attachment <> attachmentId) ->
    Malformed conversation attachmentId
| without_url attachment :
    resolve conversation attachmentId = Some attachment ->
    hasUrl attachment = false ->
    Malformed conversation attachmentId
| without_spec attachment :
    resolve conversation attachmentId = Some attachment ->
    route (a_type attachment) = None ->
    Malformed conversation attachmentId.

(** The request reaches the backend: the attachment resolves, has a url
    and a spec is registered for its type. *)
Definition Dispatched (conversation : Conversation) (request : ActionMessage)
    (attachment : Attachment) (url : string) : Prop :=
  resolve conversation (args_id (args request)) = Some attachment /\
  a_url attachment = Some url /\
  url <> EmptyString /\
  route (a_type attachment) <> None.

(** The prompt [imageDescribe] sends for a request. *)
Definition promptFor (e : PendingActionEvent) (request : ActionMessage) : string :=
  personaPrompt (agent (data_agent e))
  +:+ Json.stringify (questionsJson (questions (args request))).

(** A successful invocation: dispatched, and the backend returns. *)
Definition Successful (conversation : Conversation) (authToken : string)
    (e : PendingActionEvent) (request : ActionMessage)
    (attachment : Attachment) (url : string) (reply : AnswersObject) : Prop :=
  Dispatched conversation request attachment url /\
  describeJson url (promptFor e request) authToken = inr reply.

End Vocabulary.

(** The message after [args.queries = qa]. *)
Definition withQueries (request : ActionMessage) (qa : list QAPair) : ActionMessage :=
  mkActionMessage
    (mkArgs (args_id (args request)) (questions (args request)) (Some qa)).

(** The text handed to [agent.act] on success. *)
Definition discoveredText (attachment : Attachment) (qa : list QAPair) : string :=
  discoveredHead +:+ nl +:+ Json.stringify (discoveredJson (a_id attachment) qa).

(** A string between double quotes, as it is *)
Definition dq (s : string) : string :=
  String dquote (s +:+ String dquote EmptyString).


(** ** Sample conversations and hosts *)

Definition catPicture : Attachment :=
  mkAttachment "a1" "image/png" (Some "http://x/1.png").

Definition catConversation : Conversation :=
  mkConversation [mkMessage (Some [catPicture])].

Definition catRequest : ActionMessage :=
  mkActionMessage (mkArgs "a1" ["Describe the image."] None).

Definition catReply : AnswersObject := mkAnswers ["A cat on a mat."].

Definition catBackend (url prompt jwt : string) : Error + AnswersObject :=
  inr catReply.

Definition downBackend (url prompt jwt : string) : Error + AnswersObject :=
  inl "503".

Definition somePersona : ActiveAgent :=
  mkActiveAgent (mkAgentObject "Ann" "A curious bot").

Definition durableEvent : PendingActionEvent :=
  mkEvent somePersona (fun _ => inr tt).

Definition failingEvent : PendingActionEvent :=
  mkEvent somePersona (fun _ => inl "disk full").

(** The collection the handler itself performs, standing in for
    [collectAttachments]. *)
Definition collectByIndex (messages : list Message) : list Attachment :=
  fst (indexAttachments messages).


Definition missingRequest : ActionMessage :=
  mkActionMessage (mkArgs "missing" ["Describe the image."] None).

Definition jpegFoo : Attachment :=
  mkAttachment "a2" "image/jpeg+foo" (Some "http://x/2.jpg").

Definition pngExt : Attachment :=
  mkAttachment "a3" "image/png+ext" (Some "http://x/3.png").

Definition noUrlPicture : Attachment :=
  mkAttachment "a4" "image/webp" None.

Definition galleryConversation : Conversation :=
  mkConversation
    [mkMessage None;
     mkMessage (Some [jpegFoo; pngExt]);
     mkMessage (Some [noUrlPicture])].

Definition requestFor (attachmentId : string) : ActionMessage :=
  mkActionMessage (mkArgs attachmentId ["What is shown?"] None).

(** The context message of the cat scenario, line by line. *)
Definition catDiscovery : string :=
  joinWith nl
    [ "Your character looked at an attachment and discovered the following:";
      "{";
      "  " +:+ dq "0" +:+ ": {";
      "    " +:+ dq "q" +:+ ": " +:+ dq "Describe the image." +:+ ",";
      "    " +:+ dq "a" +:+ ": " +:+ dq "A cat on a mat.";
      "  },";
      "  " +:+ dq "attachmentId" +:+ ": " +:+ dq "a1";
      "}" ].

Definition catAnswered : ActionMessage :=
  mkActionMessage
    (mkArgs "a1" ["Describe the image."]
            (Some [mkQAPair "Describe the image." (Some "A cat on a mat.")])).

(** A request without questions about the cat picture. *)
Definition silentRequest : ActionMessage :=
  mkActionMessage (mkArgs "a1" [] None).

(** * Properties *)

(** ** Question/answer assembly *)

Lemma makeQa_lookup (qs ans : list string) (i : nat) :
  makeQa qs ans !! i = (fun qi => mkQAPair qi (ans !! i)) <$> qs !! i.
Proof. unfold makeQa. by rewrite list_lookup_imap. Qed.

Lemma makeQa_length (qs ans : list string) :
  length (makeQa qs ans) = length qs.
Proof. unfold makeQa. apply length_imap. Qed.

Lemma makeQa_cons (qi : string) (qs ans : list string) :
  makeQa (qi :: qs) ans = mkQAPair qi (head ans) :: makeQa qs (tail ans).
Proof.
  unfold makeQa. rewrite imap_cons. f_equal.
  - by destruct ans.
  - apply imap_ext. intros i x _. simpl. by destruct ans.
Qed.

(** C5: on lists of equal length [makeQa] is the positional zip, in the
    order of the questions: it has one pair per question, the i-th pair
    holds the i-th question and the i-th answer, and
    makeQa(["Q1","Q2"], ["A1","A2"]) is [{q:"Q1",a:"A1"},{q:"Q2",a:"A2"}]. *)
Theorem makeQa_equal_length (qs ans : list string) :
  length qs = length ans ->
  makeQa qs ans = zip_with (fun qi ai => mkQAPair qi (Some ai)) qs ans /\
  length (makeQa qs ans) = length qs /\
  (forall i qi ai, qs !! i = Some qi -> ans !! i = Some ai ->
                   makeQa qs ans !! i = Some (mkQAPair qi (Some ai))) /\
  makeQa ["Q1"; "Q2"] ["A1"; "A2"]
  = [mkQAPair "Q1" (Some "A1"); mkQAPair "Q2" (Some "A2")].
Proof.
  intros Hlen. repeat split.
  - revert ans Hlen. induction qs as [|qi qs IH]; intros [|ai ans] Hlen;
      simpl in Hlen; try discriminate; [reflexivity|].
    rewrite makeQa_cons. simpl. f_equal. apply IH. lia.
  - apply makeQa_length.
  - intros i qi ai Hq Ha. rewrite makeQa_lookup, Hq, Ha. reflexivity.
Qed.

Lemma makeQa_equal_length_witness :
  makeQa ["What?"; "Where?"; "Who?"] ["This."; "Here."; "Me."]
  = [mkQAPair "What?" (Some "This."); mkQAPair "Where?" (Some "Here.");
     mkQAPair "Who?" (Some "Me.")].
Proof.
  exact (proj1 (makeQa_equal_length ["What?"; "Where?"; "Who?"]
                                    ["This."; "Here."; "Me."] eq_refl)).
Defined.

(** C9: [makeQa] is a total function that never fails: for any two lists
    it returns exactly one pair per question, the i-th pair holds the i-th
    question and [answers[i]]; that answer is undefined from position
    [answers.length] on, and answers beyond the last question are dropped. *)
Theorem makeQa_any_lengths (qs ans : list string) :
  length (makeQa qs ans) = length qs /\
  (forall i qi, qs !! i = Some qi ->
     exists p, makeQa qs ans !! i = Some p /\ q p = qi /\ a p = ans !! i) /\
  (forall i p, makeQa qs ans !! i = Some p -> length ans <= i -> a p = None) /\
  makeQa qs ans = makeQa qs (take (length qs) ans).
Proof.
  split; [apply makeQa_length|]. split; [|split].
  - intros i qi Hq. exists (mkQAPair qi (ans !! i)).
    rewrite makeQa_lookup, Hq. by repeat split.
  - intros i p Hp Hi. rewrite makeQa_lookup in Hp.
    destruct (qs !! i) as [qi|]; simpl in Hp; [|discriminate].
    injection Hp as <-. simpl. by apply lookup_ge_None.
  - apply list_eq. intros i. rewrite !makeQa_lookup.
    destruct (qs !! i) as [qi|] eqn:Hq; simpl; [|reflexivity].
    rewrite lookup_take_lt; [reflexivity|]. by eapply lookup_lt_Some.
Qed.

(** ** Attachment index and type router *)

Lemma indexAttachments_fst (messages : list Message) :
  fst (indexAttachments messages) = flat_map ownAttachments messages.
Proof.
  unfold indexAttachments.
  change (flat_map ownAttachments messages)
    with (fst (@nil Attachment, @nil (Attachment * Message))
          ++ flat_map ownAttachments messages)%list.
  generalize (@nil Attachment, @nil (Attachment * Message)).
  induction messages as [|m messages IH]; intros acc; simpl.
  - by rewrite app_nil_r.
  - rewrite IH. unfold ownAttachments at 2.
    destruct (attachments m) as [own|]; [|reflexivity].
    rewrite app_assoc. f_equal.
    clear IH. revert acc. induction own as [|x own IHown]; intros acc; simpl.
    + by rewrite app_nil_r.
    + rewrite IHown. simpl. by rewrite <- app_assoc.
Qed.

Lemma resolve_conversation (conversation : Conversation) (attachmentId : string) :
  resolve conversation attachmentId
  = find (fun attachment => String.eqb (a_id attachment) attachmentId)
         (conversationAttachments conversation).
Proof. unfold resolve. by rewrite indexAttachments_fst. Qed.

Lemma resolve_unknown (conversation : Conversation) (attachmentId : string) :
  (forall attachment, In attachment (conversationAttachments conversation) ->
                      a_id attachment <> attachmentId) ->
  resolve conversation attachmentId = None.
Proof.
  intros Hno. rewrite resolve_conversation.
  destruct (find _ _) as [x|] eqn:Hfind; [|reflexivity].
  apply find_some in Hfind as [Hin Heq].
  apply String.eqb_eq in Heq. by destruct (Hno x Hin).
Qed.

Lemma resolve_found (conversation : Conversation) (attachmentId : string)
    (attachment : Attachment) :
  resolve conversation attachmentId = Some attachment ->
  In attachment (conversationAttachments conversation) /\
  a_id attachment = attachmentId.
Proof.
  rewrite resolve_conversation. intros Hfind.
  apply find_some in Hfind as [Hin Heq]. split; [done|].
  by apply String.eqb_eq.
Qed.

(** When ids are unique, as the conversation subsystem promises, the
    attachment found is the one that carries the id. *)
Lemma resolve_unique (conversation : Conversation) (attachment : Attachment) :
  NoDup (map a_id (conversationAttachments conversation)) ->
  In attachment (conversationAttachments conversation) ->
  resolve conversation (a_id attachment) = Some attachment.
Proof.
  rewrite resolve_conversation.
  induction (conversationAttachments conversation) as [|x l IH]; simpl;
    [by intros _ []|].
  intros Hnodup Hin. apply NoDup_cons_iff in Hnodup as [Hfresh Hnodup].
  destruct Hin as [->|Hin].
  - by rewrite String.eqb_refl.
  - destruct (String.eqb_spec (a_id x) (a_id attachment)) as [Heq|_].
    + destruct Hfresh. rewrite Heq. by apply in_map.
    + by apply IH.
Qed.

Section Router.

Variable describeJson : string -> string -> string -> Error + AnswersObject.

Lemma route_cases (type : string) :
  (includes (supportedVideoPerceptionTypes describeJson) type = true /\
   route describeJson type
   = Some (mkSpec ["image/jpeg"; "image/png"; "image/webp"]
                  (imageDescribe describeJson))) \/
  (includes (supportedVideoPerceptionTypes describeJson) type = false /\
   route describeJson type = None).
Proof.
  unfold route, supportedVideoPerceptionTypes, videoPerceptionSpecs.
  cbn [find flat_map types app].
  destruct (includes _ type); [left|right]; done.
Qed.

Lemma route_found (type : string) :
  route describeJson type <> None ->
  route describeJson type
  = Some (mkSpec ["image/jpeg"; "image/png"; "image/webp"]
                 (imageDescribe describeJson)).
Proof. destruct (route_cases type) as [[_ ->]|[_ ->]]; done. Qed.

End Router.

(** ** The branches of the handler *)

Ltac run_handler :=
  unfold invoke, actionHandler, bind, readMessage, consoleWarn, consoleLog,
    act, emit, await, assignQueries, ret; simpl.

Section Branches.

Variable describeJson : string -> string -> string -> Error + AnswersObject.
Variables (conversation : Conversation) (authToken : string).
Variables (e : PendingActionEvent) (request : ActionMessage).

Let attachmentId : string := args_id (args request).
Let collected : list Attachment :=
  fst (indexAttachments (getMessages conversation)).

Lemma invoke_unknown_id :
  resolve conversation attachmentId = None ->
  invoke describeJson conversation authToken e request
  = (Returned tt,
     mkWorld request
       [ConsoleWarn "warning: model generated invalid id, retrying"
          (InvalidId attachmentId collected);
        AgentAct None None]).
Proof.
  unfold resolve, attachmentId. intros Hfind. run_handler. by rewrite Hfind.
Qed.

Lemma invoke_no_url (attachment : Attachment) :
  resolve conversation attachmentId = Some attachment ->
  hasUrl attachment = false ->
  invoke describeJson conversation authToken e request
  = (Returned tt,
     mkWorld request
       [ConsoleWarn "warning: attachment has no url"
          (NoUrl attachmentId collected attachment);
        AgentAct None None]).
Proof.
  unfold resolve, attachmentId, hasUrl. intros Hfind Hurl. run_handler.
  rewrite Hfind. by destruct (a_url attachment) as [[|c url]|].
Qed.

Lemma invoke_no_spec (attachment : Attachment) :
  resolve conversation attachmentId = Some attachment ->
  hasUrl attachment = true ->
  route describeJson (a_type attachment) = None ->
  invoke describeJson conversation authToken e request
  = (Returned tt,
     mkWorld request
       [ConsoleWarn "warning: no media perception spec found for type"
          (NoSpec (a_type attachment) (map types (videoPerceptionSpecs describeJson)));
        AgentAct None None]).
Proof.
  unfold resolve, attachmentId, hasUrl, route. intros Hfind Hurl Hroute.
  run_handler. rewrite Hfind.
  destruct (a_url attachment) as [[|c url]|]; try discriminate.
  simpl in Hroute. by rewrite Hroute.
Qed.

Lemma invoke_backend_error (attachment : Attachment) (url : string) (err : Error) :
  Dispatched describeJson conversation request attachment url ->
  describeJson url (promptFor e request) authToken = inl err ->
  invoke describeJson conversation authToken e request
  = (Thrown err,
     mkWorld request [DescribeJson url (promptFor e request) authToken]).
Proof.
  intros (Hfind & Hurl & Hne & Hroute) Hfail.
  apply route_found in Hroute.
  unfold resolve in Hfind. unfold route in Hroute. unfold promptFor in *.
  run_handler. rewrite Hfind, Hurl.
  destruct url as [|c url]; [done|].
  simpl in Hroute. rewrite Hroute. simpl.
  unfold imageDescribe, bind, await. simpl. by rewrite Hfail.
Qed.

Lemma invoke_backend_reply (attachment : Attachment) (url : string)
    (reply : AnswersObject) :
  Successful describeJson conversation authToken e request attachment url reply ->
  let qa := makeQa (questions (args request)) (answers reply) in
  invoke describeJson conversation authToken e request
  = match commit e (withQueries request qa) with
    | inr _ =>
        (Returned tt,
         mkWorld (withQueries request qa)
           [DescribeJson url (promptFor e request) authToken;
            ConsoleLog "media perception qa" (questions (args request)) (answers reply);
            Commit (withQueries request qa);
            AgentAct (Some (discoveredText attachment qa))
                     (Some (mkActOptions ["mediaPerception"]))])
    | inl err =>
        (Thrown err,
         mkWorld (withQueries request qa)
           [DescribeJson url (promptFor e request) authToken;
            ConsoleLog "media perception qa" (questions (args request)) (answers reply);
            Commit (withQueries request qa)])
    end.
Proof.
  intros ((Hfind & Hurl & Hne & Hroute) & Hreply) qa.
  apply route_found in Hroute.
  unfold resolve in Hfind. unfold route in Hroute. unfold promptFor in *.
  run_handler. rewrite Hfind, Hurl.
  destruct url as [|c url]; [done|].
  simpl in Hroute. rewrite Hroute. simpl.
  unfold imageDescribe, bind, await, ret. simpl. rewrite Hreply. simpl.
  fold qa. unfold withQueries, discoveredText.
  destruct (commit e _); reflexivity.
Qed.

End Branches.

(** ** Malformed requests *)

Section Recovery.

Variable describeJson : string -> string -> string -> Error + AnswersObject.
Variables (conversation : Conversation) (authToken : string).
Variables (e : PendingActionEvent) (request : ActionMessage).

(** Whatever the malformed request, the invocation returns with the
    message untouched after two calls: a warning, then [agent.act()]. *)
Lemma invoke_malformed :
  Malformed describeJson conversation (args_id (args request)) ->
  exists label info,
    invoke describeJson conversation authToken e request
    = (Returned tt,
       mkWorld request [ConsoleWarn label info; AgentAct None None]).
Proof.
  intros [Hunknown | attachment Hfind Hurl | attachment Hfind Hroute].
  - apply resolve_unknown in Hunknown.
    do 2 eexists. by apply invoke_unknown_id.
  - do 2 eexists. by eapply invoke_no_url.
  - destruct (hasUrl attachment) eqn:Hurl.
    + do 2 eexists. by eapply invoke_no_spec.
    + do 2 eexists. by eapply invoke_no_url.
Qed.

End Recovery.

(** C1: when the attachment id matches no attachment of the conversation,
    or the attachment it resolves to has no url, or no perception spec is
    registered for that attachment's type, the handler returns after
    calling retry() (that is [agent.act()]) exactly once; it calls neither
    the backend nor commit, and leaves the message args as they were. *)
Theorem malformed_request_retries_once
    (describeJson : string -> string -> string -> Error + AnswersObject)
    (conversation : Conversation) (authToken : string)
    (e : PendingActionEvent) (request : ActionMessage) :
  Malformed describeJson conversation (args_id (args request)) ->
  let done := invoke describeJson conversation authToken e request in
  fst done = Returned tt /\
  countCalls isRetry (calls (snd done)) = 1 /\
  countCalls isAct (calls (snd done)) = 1 /\
  countCalls isDescribe (calls (snd done)) = 0 /\
  countCalls isCommit (calls (snd done)) = 0 /\
  message (snd done) = request.
Proof.
  intros Hbad. destruct (invoke_malformed describeJson conversation authToken
                           e request Hbad) as (label & info & ->).
  simpl. repeat split.
Qed.

Lemma malformed_request_retries_once_witness :
  let done := invoke catBackend catConversation "jwt" durableEvent missingRequest in
  fst done = Returned tt /\
  countCalls isRetry (calls (snd done)) = 1 /\
  countCalls isAct (calls (snd done)) = 1 /\
  countCalls isDescribe (calls (snd done)) = 0 /\
  countCalls isCommit (calls (snd done)) = 0 /\
  message (snd done) = missingRequest.
Proof.
  apply malformed_request_retries_once.
  apply unknown_id. simpl. intros attachment [<- | []]. discriminate.
Defined.

(** C8: in each of the three recovery branches (unknown id, no url, no
    spec) the only call of the agent's reasoning step is [agent.act()]
    with no message and no options. *)
Theorem retry_acts_without_arguments
    (describeJson : string -> string -> string -> Error + AnswersObject)
    (conversation : Conversation) (authToken : string)
    (e : PendingActionEvent) (request : ActionMessage) :
  let trace := calls (snd (invoke describeJson conversation authToken e request)) in
  let bare :=
    In (AgentAct None None) trace /\
    (forall text opts, In (AgentAct text opts) trace -> text = None /\ opts = None) in
  (resolve conversation (args_id (args request)) = None -> bare) /\
  (forall attachment,
     resolve conversation (args_id (args request)) = Some attachment ->
     hasUrl attachment = false -> bare) /\
  (forall attachment,
     resolve conversation (args_id (args request)) = Some attachment ->
     hasUrl attachment = true ->
     route describeJson (a_type attachment) = None -> bare).
Proof.
  assert (Hbare : forall label info,
             In (AgentAct None None) [ConsoleWarn label info; AgentAct None None] /\
             (forall text opts,
                In (AgentAct text opts) [ConsoleWarn label info; AgentAct None None] ->
                text = None /\ opts = None)).
  { intros label info. split; [right; left; reflexivity|].
    intros text opts [Hc | [Hc | []]]; [discriminate|].
    by injection Hc as <- <-. }
  cbv zeta. split; [|split].
  - intros Hfind. rewrite (invoke_unknown_id _ _ _ _ _ Hfind). apply Hbare.
  - intros attachment Hfind Hurl.
    rewrite (invoke_no_url _ _ _ _ _ _ Hfind Hurl). apply Hbare.
  - intros attachment Hfind Hurl Hroute.
    rewrite (invoke_no_spec _ _ _ _ _ _ Hfind Hurl Hroute). apply Hbare.
Qed.

Lemma retry_acts_without_arguments_witness :
  let trace := calls (snd (invoke catBackend galleryConversation "jwt" durableEvent
                              (requestFor "a3"))) in
  In (AgentAct None None) trace /\
  (forall text opts, In (AgentAct text opts) trace -> text = None /\ opts = None).
Proof.
  apply (proj2 (proj2 (retry_acts_without_arguments catBackend galleryConversation
                         "jwt" durableEvent (requestFor "a3"))) pngExt);
    reflexivity.
Defined.

(** ** Backend failure *)

(** C4: when the backend call fails, the handler does not catch the
    error: the invocation ends by throwing that same error, after a single
    call of the backend (no retry), with the message args not mutated, no
    commit and no call of [agent.act]. *)
Theorem backend_error_propagates
    (describeJson : string -> string -> string -> Error + AnswersObject)
    (conversation : Conversation) (authToken : string)
    (e : PendingActionEvent) (request : ActionMessage)
    (attachment : Attachment) (url : string) (err : Error) :
  Dispatched describeJson conversation request attachment url ->
  describeJson url (promptFor e request) authToken = inl err ->
  let done := invoke describeJson conversation authToken e request in
  fst done = Thrown err /\
  message (snd done) = request /\
  calls (snd done) = [DescribeJson url (promptFor e request) authToken] /\
  countCalls isCommit (calls (snd done)) = 0 /\
  countCalls isAct (calls (snd done)) = 0.
Proof.
  intros Hgo Hfail.
  rewrite (invoke_backend_error _ _ _ _ _ _ _ _ Hgo Hfail). simpl.
  repeat split.
Qed.

Lemma backend_error_propagates_witness :
  let done := invoke downBackend catConversation "jwt" durableEvent catRequest in
  fst done = Thrown "503" /\
  message (snd done) = catRequest /\
  calls (snd done)
  = [DescribeJson "http://x/1.png" (promptFor durableEvent catRequest) "jwt"] /\
  countCalls isCommit (calls (snd done)) = 0 /\
  countCalls isAct (calls (snd done)) = 0.
Proof.
  apply (backend_error_propagates downBackend catConversation "jwt" durableEvent
           catRequest catPicture "http://x/1.png" "503").
  - repeat split; try reflexivity; discriminate.
  - reflexivity.
Defined.

(** ** Commit, then resume *)

(** C2: in a successful invocation every call of [agent.act] comes after
    the call of [e.commit], and that commit has resolved: the handler
    awaits it, so when the commit rejects the agent is not resumed at
    all, and when it resolves the agent is resumed once. *)
Theorem commit_completes_before_act
    (describeJson : string -> string -> string -> Error + AnswersObject)
    (conversation : Conversation) (authToken : string)
    (e : PendingActionEvent) (request : ActionMessage)
    (attachment : Attachment) (url : string) (reply : AnswersObject) :
  Successful describeJson conversation authToken e request attachment url reply ->
  let done := invoke describeJson conversation authToken e request in
  let committed :=
    withQueries request (makeQa (questions (args request)) (answers reply)) in
  countCalls isCommit (calls (snd done)) = 1 /\
  (forall before text opts after,
     calls (snd done) = (before ++ AgentAct text opts :: after)%list ->
     In (Commit committed) before /\ commit e committed = inr tt) /\
  (commit e committed = inr tt ->
   fst done = Returned tt /\ countCalls isAct (calls (snd done)) = 1) /\
  (forall err, commit e committed = inl err ->
   fst done = Thrown err /\ countCalls isAct (calls (snd done)) = 0).
Proof.
  intros Hok. cbv zeta.
  rewrite (invoke_backend_reply _ _ _ _ _ _ _ _ Hok).
  destruct (commit e _) as [err|[]] eqn:Hcommit; simpl.
  - split; [reflexivity|]. split; [|split].
    + intros before text opts after Heq. exfalso.
      destruct before as [|c1 [|c2 [|c3 [|c4 before]]]]; simpl in Heq;
        try discriminate; destruct before; discriminate.
    + discriminate.
    + intros err' [= <-]. by split.
  - split; [reflexivity|]. split; [|split].
    + intros before text opts after Heq.
      destruct before as [|c1 [|c2 [|c3 [|c4 before]]]]; simpl in Heq;
        try discriminate.
      * injection Heq as <- <- <- _. simpl. tauto.
      * destruct before; discriminate.
    + intros _. by split.
    + discriminate.
Qed.

Lemma commit_completes_before_act_witness :
  let done := invoke catBackend catConversation "jwt" durableEvent catRequest in
  let committed :=
    withQueries catRequest (makeQa (questions (args catRequest)) (answers catReply)) in
  countCalls isCommit (calls (snd done)) = 1 /\
  (forall before text opts after,
     calls (snd done) = (before ++ AgentAct text opts :: after)%list ->
     In (Commit committed) before /\ commit durableEvent committed = inr tt) /\
  (commit durableEvent committed = inr tt ->
   fst done = Returned tt /\ countCalls isAct (calls (snd done)) = 1) /\
  (forall err, commit durableEvent committed = inl err ->
   fst done = Thrown err /\ countCalls isAct (calls (snd done)) = 0).
Proof.
  apply (commit_completes_before_act catBackend catConversation "jwt" durableEvent
           catRequest catPicture "http://x/1.png" catReply).
  repeat split; try reflexivity; discriminate.
Defined.

(** C3: in a successful invocation of the handler of the rendered action,
    every call of [agent.act] carries options whose [excludeActions] holds
    the type of that very action, "mediaPerception"; when the commit
    resolves there is such a call. *)
Theorem resume_excludes_own_action
    (describeJson : string -> string -> string -> Error + AnswersObject)
    (collectAttachments : list Message -> list Attachment)
    (conversation : Conversation) (authToken randomId : string)
    (props : ActionProps)
    (e : PendingActionEvent) (request : ActionMessage)
    (attachment : Attachment) (url : string) (reply : AnswersObject) :
  VideoPerceptionInner describeJson collectAttachments (Some conversation)
    authToken randomId = RenderedAction props ->
  Successful describeJson conversation authToken e request attachment url reply ->
  let trace := calls (snd (handler props e (mkWorld request []))) in
  action_type props = "mediaPerception" /\
  (forall text opts, In (AgentAct text opts) trace ->
     exists options, opts = Some options /\
                     In (action_type props) (excludeActions options)) /\
  (commit e (withQueries request (makeQa (questions (args request)) (answers reply)))
   = inr tt ->
   exists text, In (AgentAct (Some text) (Some (mkActOptions [action_type props]))) trace).
Proof.
  intros Hrender Hok. unfold VideoPerceptionInner in Hrender.
  destruct (_ <? _)%nat in Hrender; [|discriminate].
  injection Hrender as <-. cbv zeta. cbn [action_type handler].
  change (actionHandler describeJson conversation authToken e (mkWorld request []))
    with (invoke describeJson conversation authToken e request).
  rewrite (invoke_backend_reply _ _ _ _ _ _ _ _ Hok).
  split; [reflexivity|].
  destruct (commit e _) as [err|[]]; simpl; split.
  - intros text opts [Hc | [Hc | [Hc | []]]]; discriminate.
  - discriminate.
  - intros text opts [Hc | [Hc | [Hc | [Hc | []]]]]; try discriminate.
    injection Hc as <- <-. eexists. split; [reflexivity|]. by left.
  - intros _. eexists. do 3 right. left. reflexivity.
Qed.

Lemma resume_excludes_own_action_witness :
  exists props,
    VideoPerceptionInner catBackend collectByIndex (Some catConversation) "jwt" "rid"
    = RenderedAction props /\
    let trace := calls (snd (handler props durableEvent (mkWorld catRequest []))) in
    action_type props = "mediaPerception" /\
    (forall text opts, In (AgentAct text opts) trace ->
       exists options, opts = Some options /\
                       In (action_type props) (excludeActions options)) /\
    (commit durableEvent
       (withQueries catRequest (makeQa (questions (args catRequest)) (answers catReply)))
     = inr tt ->
     exists text,
       In (AgentAct (Some text) (Some (mkActOptions [action_type props]))) trace).
Proof.
  eexists. split; [reflexivity|].
  apply (resume_excludes_own_action catBackend collectByIndex catConversation
           "jwt" "rid" _ durableEvent catRequest catPicture "http://x/1.png" catReply).
  - reflexivity.
  - repeat split; try reflexivity; discriminate.
Defined.

(** C7: the cat scenario.  The conversation has one message with the
    attachment a1 (image/png, http://x/1.png), the request asks
    "Describe the image." about a1 and the backend answers
    "A cat on a mat.": the commit receives the message whose args hold
    queries [{q: "Describe the image.", a: "A cat on a mat."}], and the
    agent is then resumed with the context message that shows that pair
    and attachmentId "a1". *)
Theorem cat_scenario
    (describeJson : string -> string -> string -> Error + AnswersObject)
    (authToken : string) (e : PendingActionEvent) :
  describeJson "http://x/1.png" (promptFor e catRequest) authToken = inr catReply ->
  commit e catAnswered = inr tt ->
  invoke describeJson catConversation authToken e catRequest
  = (Returned tt,
     mkWorld catAnswered
       [DescribeJson "http://x/1.png" (promptFor e catRequest) authToken;
        ConsoleLog "media perception qa" ["Describe the image."] ["A cat on a mat."];
        Commit catAnswered;
        AgentAct (Some catDiscovery) (Some (mkActOptions ["mediaPerception"]))]).
Proof.
  intros Hreply Hcommit.
  assert (Hok : Successful describeJson catConversation authToken e catRequest
                  catPicture "http://x/1.png" catReply).
  { repeat split; try reflexivity; try discriminate. exact Hreply. }
  rewrite (invoke_backend_reply _ _ _ _ _ _ _ _ Hok).
  change (withQueries catRequest _) with catAnswered.
  rewrite Hcommit. reflexivity.
Qed.

Lemma cat_scenario_witness :
  invoke catBackend catConversation "jwt" durableEvent catRequest
  = (Returned tt,
     mkWorld catAnswered
       [DescribeJson "http://x/1.png" (promptFor durableEvent catRequest) "jwt";
        ConsoleLog "media perception qa" ["Describe the image."] ["A cat on a mat."];
        Commit catAnswered;
        AgentAct (Some catDiscovery) (Some (mkActOptions ["mediaPerception"]))]).
Proof.
  apply (cat_scenario catBackend "jwt" durableEvent); reflexivity.
Defined.

(** ** Availability filter against type routing *)

Lemma includes_In (l : list string) (x : string) :
  includes l x = true <-> In x l.
Proof.
  unfold includes. rewrite existsb_exists. split.
  - intros (y & Hin & Heq). apply String.eqb_eq in Heq. by subst.
  - intros Hin. exists x. split; [done|]. apply String.eqb_refl.
Qed.

Lemma typeClean_no_plus (type : string) :
  hasPlus type = false -> typeClean type = type.
Proof.
  induction type as [|c rest IH]; simpl; [done|].
  destruct (Ascii.eqb c "+"); [discriminate|]. intros Hrest. by rewrite IH.
Qed.

Lemma typeClean_suffixed (base suffix : string) :
  hasPlus base = false -> typeClean (base +:+ "+" +:+ suffix) = base.
Proof.
  induction base as [|c rest IH]; simpl; [done|].
  destruct (Ascii.eqb c "+"); [discriminate|]. intros Hrest. by rewrite IH.
Qed.

Lemma hasPlus_suffixed (base suffix : string) :
  hasPlus (base +:+ "+" +:+ suffix) = true.
Proof.
  induction base as [|c rest IH]; simpl; [done|].
  by destruct (Ascii.eqb c "+").
Qed.

Lemma typeClean_is_prefix (type : string) :
  hasPlus (typeClean type) = false /\
  (typeClean type = type \/ exists rest, type = typeClean type +:+ "+" +:+ rest).
Proof.
  induction type as [|c rest [IHno IHcut]]; simpl; [by split; [|left]|].
  destruct (Ascii.eqb c "+") eqn:Hc; simpl.
  - split; [done|]. right. exists rest. apply Ascii.eqb_eq in Hc. by subst.
  - rewrite Hc. split; [done|].
    destruct IHcut as [->|(tail & Htail)]; [by left|].
    right. exists tail. by rewrite Htail at 1.
Qed.

Section Filter.

Variable describeJson : string -> string -> string -> Error + AnswersObject.
Variable collectAttachments : list Message -> list Attachment.

Lemma supported_types_plain (type : string) :
  In type (supportedVideoPerceptionTypes describeJson) -> hasPlus type = false.
Proof.
  unfold supportedVideoPerceptionTypes, videoPerceptionSpecs. simpl.
  intros [<- | [<- | [<- | []]]]; reflexivity.
Qed.

Lemma available_iff (conversation : Conversation) (attachment : Attachment) :
  In attachment (availableAttachments describeJson collectAttachments conversation)
  <-> In attachment (collectAttachments (getMessages conversation)) /\
      In (typeClean (a_type attachment)) (supportedVideoPerceptionTypes describeJson).
Proof.
  unfold availableAttachments. rewrite filter_In. cbv zeta.
  by rewrite includes_In.
Qed.

Lemma suffixed_type_unrouted (base suffix : string) :
  route describeJson (base +:+ "+" +:+ suffix) = None.
Proof.
  destruct (route_cases describeJson (base +:+ "+" +:+ suffix))
    as [[Hin _]|[_ Hnone]]; [|done].
  apply includes_In, supported_types_plain in Hin.
  by rewrite hasPlus_suffixed in Hin.
Qed.

Lemma render_action (conversation : Conversation) (authToken randomId : string)
    (attachment : Attachment) :
  In attachment (availableAttachments describeJson collectAttachments conversation) ->
  exists props,
    VideoPerceptionInner describeJson collectAttachments (Some conversation)
      authToken randomId = RenderedAction props /\
    description props
    = descriptionOf (availableAttachments describeJson collectAttachments conversation).
Proof.
  intros Hin. unfold VideoPerceptionInner. cbv zeta.
  destruct (availableAttachments _ _ _) as [|x offered]; [destruct Hin|].
  simpl. eexists. split; reflexivity.
Qed.

End Filter.

(** C6: the availability filter tests the attachment type cut at its
    first '+' for membership in the supported types, and keeps the stored
    attachment as it is: an attachment of type image/jpeg+foo is tested
    as image/jpeg and is offered, still with the type image/jpeg+foo. *)
Theorem availability_strips_parameter
    (describeJson : string -> string -> string -> Error + AnswersObject)
    (collectAttachments : list Message -> list Attachment)
    (conversation : Conversation) :
  (forall type,
     hasPlus (typeClean type) = false /\
     (typeClean type = type \/ exists rest, type = typeClean type +:+ "+" +:+ rest)) /\
  (forall attachment,
     In attachment (availableAttachments describeJson collectAttachments conversation)
     <-> In attachment (collectAttachments (getMessages conversation)) /\
         In (typeClean (a_type attachment))
            (supportedVideoPerceptionTypes describeJson)) /\
  (forall id url,
     let attachment := mkAttachment id "image/jpeg+foo" url in
     typeClean (a_type attachment) = "image/jpeg" /\
     (In attachment (collectAttachments (getMessages conversation)) ->
      In attachment (availableAttachments describeJson collectAttachments conversation))).
Proof.
  split; [apply typeClean_is_prefix|]. split; [apply available_iff|].
  intros id url attachment. split; [reflexivity|].
  intros Hin. apply available_iff. split; [done|]. simpl. by left.
Qed.

(** C10: the router tests the raw type.  An attachment whose type is a
    supported type followed by '+' and a suffix passes the availability
    filter and is listed in the description of the action, yet no spec is
    found for its type: a request that resolves to it is answered by
    retry, and the backend is never called. *)
Theorem suffixed_type_offered_but_not_routed
    (describeJson : string -> string -> string -> Error + AnswersObject)
    (collectAttachments : list Message -> list Attachment)
    (conversation : Conversation) (authToken randomId : string)
    (e : PendingActionEvent) (request : ActionMessage)
    (attachment : Attachment) (base suffix : string) :
  In base (supportedVideoPerceptionTypes describeJson) ->
  a_type attachment = base +:+ "+" +:+ suffix ->
  let offered := availableAttachments describeJson collectAttachments conversation in
  let done := invoke describeJson conversation authToken e request in
  (In attachment (collectAttachments (getMessages conversation)) ->
   In attachment offered /\
   exists props,
     VideoPerceptionInner describeJson collectAttachments (Some conversation)
       authToken randomId = RenderedAction props /\
     description props = descriptionOf offered) /\
  route describeJson (a_type attachment) = None /\
  (resolve conversation (args_id (args request)) = Some attachment ->
   fst done = Returned tt /\
   message (snd done) = request /\
   countCalls isDescribe (calls (snd done)) = 0 /\
   countCalls isRetry (calls (snd done)) = 1 /\
   (hasUrl attachment = true ->
    calls (snd done)
    = [ConsoleWarn "warning: no media perception spec found for type"
         (NoSpec (a_type attachment) (map types (videoPerceptionSpecs describeJson)));
       AgentAct None None])).
Proof.
  intros Hbase Htype. cbv zeta.
  assert (Hroute : route describeJson (a_type attachment) = None)
    by (rewrite Htype; apply suffixed_type_unrouted).
  split; [|split; [exact Hroute|]].
  - intros Hin.
    assert (Hoffered : In attachment
              (availableAttachments describeJson collectAttachments conversation)).
    { apply available_iff. split; [done|].
      rewrite Htype, typeClean_suffixed; [done|].
      by eapply supported_types_plain. }
    split; [done|]. by eapply render_action.
  - intros Hfind.
    destruct (hasUrl attachment) eqn:Hurl.
    + rewrite (invoke_no_spec _ _ _ _ _ _ Hfind Hurl Hroute). simpl.
      repeat split.
    + rewrite (invoke_no_url _ _ _ _ _ _ Hfind Hurl). simpl.
      repeat split. discriminate.
Qed.

Lemma suffixed_type_offered_but_not_routed_witness :
  let done := invoke catBackend galleryConversation "jwt" durableEvent (requestFor "a3") in
  In pngExt (availableAttachments catBackend collectByIndex galleryConversation) /\
  route catBackend "image/png+ext" = None /\
  fst done = Returned tt /\
  countCalls isDescribe (calls (snd done)) = 0 /\
  calls (snd done)
  = [ConsoleWarn "warning: no media perception spec found for type"
       (NoSpec "image/png+ext" [["image/jpeg"; "image/png"; "image/webp"]]);
     AgentAct None None].
Proof.
  destruct (suffixed_type_offered_but_not_routed catBackend collectByIndex
              galleryConversation "jwt" "rid" durableEvent (requestFor "a3")
              pngExt "image/png" "ext")
    as (Hoffered & Hroute & Hrun).
  - simpl. right. left. reflexivity.
  - reflexivity.
  - destruct Hoffered as [Hin _]; [simpl; tauto|].
    destruct Hrun as (Hret & _ & Hnone & _ & Htrace); [reflexivity|].
    split; [exact Hin|]. split; [exact Hroute|]. split; [exact Hret|].
    split; [exact Hnone|]. apply Htrace. reflexivity.
Defined.

(** ** The branches on sample conversations *)

Example gallery_offer :
  availableAttachments catBackend collectByIndex galleryConversation
  = [jpegFoo; pngExt; noUrlPicture].
Proof. reflexivity. Qed.

Example gallery_no_url :
  invoke catBackend galleryConversation "jwt" durableEvent (requestFor "a4")
  = (Returned tt,
     mkWorld (requestFor "a4")
       [ConsoleWarn "warning: attachment has no url"
          (NoUrl "a4" [jpegFoo; pngExt; noUrlPicture] noUrlPicture);
        AgentAct None None]).
Proof. reflexivity. Qed.

Example gallery_unknown_id :
  invoke catBackend galleryConversation "jwt" durableEvent (requestFor "a9")
  = (Returned tt,
     mkWorld (requestFor "a9")
       [ConsoleWarn "warning: model generated invalid id, retrying"
          (InvalidId "a9" [jpegFoo; pngExt; noUrlPicture]);
        AgentAct None None]).
Proof. reflexivity. Qed.

Example cat_commit_rejected :
  invoke catBackend catConversation "jwt" failingEvent catRequest
  = (Thrown "disk full",
     mkWorld catAnswered
       [DescribeJson "http://x/1.png" (promptFor failingEvent catRequest) "jwt";
        ConsoleLog "media perception qa" ["Describe the image."] ["A cat on a mat."];
        Commit catAnswered]).
Proof. reflexivity. Qed.

Example short_answers :
  makeQa ["Q1"; "Q2"; "Q3"] ["A1"]
  = [mkQAPair "Q1" (Some "A1"); mkQAPair "Q2" None; mkQAPair "Q3" None].
Proof. reflexivity. Qed.

Example long_answers :
  makeQa ["Q1"] ["A1"; "A2"] = [mkQAPair "Q1" (Some "A1")].
Proof. reflexivity. Qed.

(** ** Every invocation, case by case *)

Lemma resolve_none_unknown (conversation : Conversation) (attachmentId : string) :
  resolve conversation attachmentId = None ->
  forall attachment, In attachment (conversationAttachments conversation) ->
                     a_id attachment <> attachmentId.
Proof.
  rewrite resolve_conversation. intros Hnone attachment Hin Heq.
  pose proof (find_none _ _ Hnone attachment Hin) as Hneq. simpl in Hneq.
  apply String.eqb_neq in Hneq. by destruct Hneq.
Qed.

Lemma hasUrl_url (attachment : Attachment) :
  hasUrl attachment = true <->
  exists url, a_url attachment = Some url /\ url <> EmptyString.
Proof.
  unfold hasUrl. split.
  - destruct (a_url attachment) as [[|c url]|]; try discriminate.
    intros _. by eexists.
  - intros (url & -> & Hne). by destruct url.
Qed.

Section Cases.

Variable describeJson : string -> string -> string -> Error + AnswersObject.
Variables (conversation : Conversation) (authToken : string).
Variables (e : PendingActionEvent) (request : ActionMessage).

Lemma malformed_not_dispatched (attachment : Attachment) (url : string) :
  Malformed describeJson conversation (args_id (args request)) ->
  Dispatched describeJson conversation request attachment url -> False.
Proof.
  intros Hbad (Hfind & Hurl & Hne & Hroute).
  destruct Hbad as [Hunknown | other Hother Hno | other Hother Hnone].
  - apply resolve_unknown in Hunknown. congruence.
  - assert (other = attachment) as -> by congruence.
    assert (hasUrl attachment = true) by (apply hasUrl_url; eauto). congruence.
  - assert (other = attachment) as -> by congruence. done.
Qed.

Lemma dispatched_unique (attachment other : Attachment) (url link : string) :
  Dispatched describeJson conversation request attachment url ->
  Dispatched describeJson conversation request other link ->
  attachment = other /\ url = link.
Proof.
  intros (Hfind & Hurl & _) (Hfind' & Hurl' & _).
  assert (attachment = other) as -> by congruence.
  split; congruence.
Qed.

(** An invocation ends in one of three ways: recovery from a malformed
    request, a backend error, or the commit that follows a reply. *)
Lemma invoke_cases :
  (Malformed describeJson conversation (args_id (args request)) /\
   exists label info,
     invoke describeJson conversation authToken e request
     = (Returned tt, mkWorld request [ConsoleWarn label info; AgentAct None None])) \/
  (exists attachment url err,
     Dispatched describeJson conversation request attachment url /\
     describeJson url (promptFor e request) authToken = inl err /\
     invoke describeJson conversation authToken e request
     = (Thrown err, mkWorld request [DescribeJson url (promptFor e request) authToken])) \/
  (exists attachment url reply,
     Successful describeJson conversation authToken e request attachment url reply /\
     let qa := makeQa (questions (args request)) (answers reply) in
     invoke describeJson conversation authToken e request
     = match commit e (withQueries request qa) with
       | inr _ =>
           (Returned tt,
            mkWorld (withQueries request qa)
              [DescribeJson url (promptFor e request) authToken;
               ConsoleLog "media perception qa" (questions (args request)) (answers reply);
               Commit (withQueries request qa);
               AgentAct (Some (discoveredText attachment qa))
                        (Some (mkActOptions ["mediaPerception"]))])
       | inl err =>
           (Thrown err,
            mkWorld (withQueries request qa)
              [DescribeJson url (promptFor e request) authToken;
               ConsoleLog "media perception qa" (questions (args request)) (answers reply);
               Commit (withQueries request qa)])
       end).
Proof.
  assert (Hrecover : Malformed describeJson conversation (args_id (args request)) ->
            Malformed describeJson conversation (args_id (args request)) /\
            exists label info,
              invoke describeJson conversation authToken e request
              = (Returned tt,
                 mkWorld request [ConsoleWarn label info; AgentAct None None])).
  { intros Hbad. split; [done|]. by apply invoke_malformed. }
  destruct (resolve conversation (args_id (args request))) as [attachment|] eqn:Hfind.
  - destruct (hasUrl attachment) eqn:Hurl.
    + destruct (route describeJson (a_type attachment)) as [spec|] eqn:Hroute.
      * apply hasUrl_url in Hurl as (url & Hurl & Hne).
        assert (Hgo : Dispatched describeJson conversation request attachment url).
        { repeat split; try done. by rewrite Hroute. }
        destruct (describeJson url (promptFor e request) authToken)
          as [err|reply] eqn:Hreply.
        -- right. left. exists attachment, url, err.
           split; [exact Hgo|]. split; [exact Hreply|].
           by eapply invoke_backend_error.
        -- right. right. exists attachment, url, reply.
           assert (Hok : Successful describeJson conversation authToken e request
                           attachment url reply) by done.
           split; [done|]. by apply invoke_backend_reply.
      * left. apply Hrecover. by eapply without_spec.
    + left. apply Hrecover. by eapply without_url.
  - left. apply Hrecover. apply unknown_id. by apply resolve_none_unknown.
Qed.

End Cases.

(** ** What every invocation does *)

(** X1: an invocation that returns has resumed the agent exactly once, as
    its last call; an invocation that throws has not resumed it. *)
Theorem resumes_once_unless_thrown
    (describeJson : string -> string -> string -> Error + AnswersObject)
    (conversation : Conversation) (authToken : string)
    (e : PendingActionEvent) (request : ActionMessage) :
  let done := invoke describeJson conversation authToken e request in
  match fst done with
  | Returned _ =>
      exists before text opts,
        calls (snd done) = (before ++ [AgentAct text opts])%list /\
        countCalls isAct before = 0
  | Thrown _ => countCalls isAct (calls (snd done)) = 0
  end.
Proof.
  cbv zeta.
  destruct (invoke_cases describeJson conversation authToken e request)
    as [(_ & label & info & ->) | [(att & url & err & _ & _ & ->)
                                  | (att & url & reply & _ & ->)]].
  - simpl. by exists [ConsoleWarn label info], None, None.
  - reflexivity.
  - destruct (commit e _) as [err|[]]; simpl; [reflexivity|].
    eexists [_; _; _], _, _. by split.
Qed.


(** X3: the handler never touches the id or the questions of the message;
    it sets [queries] exactly when the backend has replied, to one pair per
    question; it commits at most once, and what it commits is the message
    with those queries, as it stands at the end. *)
Theorem message_changes_only_by_queries
    (describeJson : string -> string -> string -> Error + AnswersObject)
    (conversation : Conversation) (authToken : string)
    (e : PendingActionEvent) (request : ActionMessage) :
  let done := invoke describeJson conversation authToken e request in
  let final := message (snd done) in
  args_id (args final) = args_id (args request) /\
  questions (args final) = questions (args request) /\
  (forall attachment url reply,
     Successful describeJson conversation authToken e request attachment url reply ->
     final = withQueries request (makeQa (questions (args request)) (answers reply))) /\
  ((forall attachment url reply,
      ~ Successful describeJson conversation authToken e request attachment url reply) ->
   final = request) /\
  countCalls isCommit (calls (snd done)) <= 1 /\
  (forall m, In (Commit m) (calls (snd done)) ->
     m = final /\
     exists qa, queries (args m) = Some qa /\
                length qa = length (questions (args request))).
Proof.
  cbv zeta.
  destruct (invoke_cases describeJson conversation authToken e request)
    as [(Hbad & label & info & ->) | [(att & link & err & Hgo & Herr & ->)
                                     | (att & link & reply & Hok & ->)]].
  - simpl. do 2 (split; [reflexivity|]). split; [|split; [done|split]].
    + intros other url reply [Hgo _].
      destruct (malformed_not_dispatched _ _ _ _ _ Hbad Hgo).
    + unfold countCalls. simpl. lia.
    + intros m [Hc | [Hc | []]]; discriminate.
  - simpl. do 2 (split; [reflexivity|]). split; [|split; [done|split]].
    + intros other url reply [Hother Hreply].
      destruct (dispatched_unique _ _ _ _ _ _ _ Hgo Hother) as [_ <-]. congruence.
    + unfold countCalls. simpl. lia.
    + intros m [Hc | []]; discriminate.
  - assert (Hfinal : forall other url answer,
              Successful describeJson conversation authToken e request other url answer ->
              withQueries request (makeQa (questions (args request)) (answers reply))
              = withQueries request (makeQa (questions (args request)) (answers answer))).
    { intros other url answer [Hother Hanswer]. destruct Hok as [Hgo Hreply].
      destruct (dispatched_unique _ _ _ _ _ _ _ Hgo Hother) as [_ <-]. congruence. }
    assert (Hcommitted : forall m,
              Commit m
              = Commit (withQueries request
                          (makeQa (questions (args request)) (answers reply))) ->
              m = withQueries request (makeQa (questions (args request)) (answers reply)) /\
              exists qa, queries (args m) = Some qa /\
                         length qa = length (questions (args request))).
    { intros m [= ->]. split; [done|]. eexists. split; [reflexivity|].
      apply makeQa_length. }
    destruct (commit e _) as [err|[]]; simpl.
    all: do 2 (split; [reflexivity|]); split; [exact Hfinal|]; split;
      [intros Hnever; by destruct (Hnever _ _ _ Hok)|]; split;
      [unfold countCalls; simpl; lia|].
    + intros m [Hc | [Hc | [Hc | []]]]; try discriminate. by apply Hcommitted.
    + intros m [Hc | [Hc | [Hc | [Hc | []]]]]; try discriminate. by apply Hcommitted.
Qed.

Lemma dispatched_same_args
    (describeJson : string -> string -> string -> Error + AnswersObject)
    (conversation : Conversation) (request again : ActionMessage)
    (attachment : Attachment) (url : string) :
  args_id (args request) = args_id (args again) ->
  Dispatched describeJson conversation request attachment url ->
  Dispatched describeJson conversation again attachment url.
Proof. unfold Dispatched. by intros <-. Qed.

(** X4: queries already on the message play no part: two messages with
    the same id and questions lead to the same outcome and the same calls,
    so a message that was answered before is queried and committed again
    as if it were new. *)
Theorem previous_queries_ignored
    (describeJson : string -> string -> string -> Error + AnswersObject)
    (conversation : Conversation) (authToken : string)
    (e : PendingActionEvent) (request again : ActionMessage) :
  args_id (args request) = args_id (args again) ->
  questions (args request) = questions (args again) ->
  let first := invoke describeJson conversation authToken e request in
  let second := invoke describeJson conversation authToken e again in
  fst first = fst second /\ calls (snd first) = calls (snd second).
Proof.
  intros Hid Hqs. cbv zeta.
  assert (Hprompt : promptFor e request = promptFor e again)
    by (unfold promptFor; by rewrite Hqs).
  destruct (invoke_cases describeJson conversation authToken e request)
    as [(Hbad & _) | [(att & url & err & Hgo & Herr & ->)
                     | (att & url & reply & [Hgo Hreply] & ->)]].
  - destruct Hbad as [Hunknown | att Hfind Hurl | att Hfind Hroute].
    + apply resolve_unknown in Hunknown.
      rewrite (invoke_unknown_id describeJson conversation authToken e request Hunknown).
      rewrite Hid in Hunknown.
      rewrite (invoke_unknown_id describeJson conversation authToken e again Hunknown).
      simpl. by rewrite Hid.
    + rewrite (invoke_no_url describeJson conversation authToken e request att Hfind Hurl).
      rewrite Hid in Hfind.
      rewrite (invoke_no_url describeJson conversation authToken e again att Hfind Hurl).
      simpl. by rewrite Hid.
    + destruct (hasUrl att) eqn:Hurl.
      * rewrite (invoke_no_spec describeJson conversation authToken e request att
                   Hfind Hurl Hroute).
        rewrite Hid in Hfind.
        by rewrite (invoke_no_spec describeJson conversation authToken e again att
                      Hfind Hurl Hroute).
      * rewrite (invoke_no_url describeJson conversation authToken e request att Hfind Hurl).
        rewrite Hid in Hfind.
        rewrite (invoke_no_url describeJson conversation authToken e again att Hfind Hurl).
        simpl. by rewrite Hid.
  - apply (dispatched_same_args _ _ _ again _ _ Hid) in Hgo.
    rewrite Hprompt in Herr.
    rewrite (invoke_backend_error describeJson conversation authToken e again
               att url err Hgo Herr).
    simpl. by rewrite Hprompt.
  - apply (dispatched_same_args _ _ _ again _ _ Hid) in Hgo.
    rewrite Hprompt in Hreply.
    rewrite (invoke_backend_reply describeJson conversation authToken e again
               att url reply (conj Hgo Hreply)).
    assert (Hsame : withQueries request (makeQa (questions (args request)) (answers reply))
                    = withQueries again (makeQa (questions (args again)) (answers reply)))
      by (unfold withQueries; by rewrite Hid, Hqs).
    rewrite Hsame, Hprompt, Hqs. by destruct (commit e _).
Qed.

Lemma previous_queries_ignored_witness :
  let first := invoke catBackend catConversation "jwt" durableEvent catRequest in
  let second := invoke catBackend catConversation "jwt" durableEvent catAnswered in
  fst first = fst second /\ calls (snd first) = calls (snd second).
Proof.
  apply (previous_queries_ignored catBackend catConversation "jwt" durableEvent
           catRequest catAnswered); reflexivity.
Defined.

(** X5: a request without questions is still sent to the backend; whatever
    the backend answers, the queries committed are the empty list and the
    context message shows the attachment id alone. *)
Theorem no_questions_still_queries
    (describeJson : string -> string -> string -> Error + AnswersObject)
    (conversation : Conversation) (authToken : string)
    (e : PendingActionEvent) (request : ActionMessage)
    (attachment : Attachment) (url : string) (reply : AnswersObject) :
  questions (args request) = [] ->
  Successful describeJson conversation authToken e request attachment url reply ->
  commit e (withQueries request []) = inr tt ->
  invoke describeJson conversation authToken e request
  = (Returned tt,
     mkWorld (withQueries request [])
       [DescribeJson url (promptFor e request) authToken;
        ConsoleLog "media perception qa" [] (answers reply);
        Commit (withQueries request []);
        AgentAct
          (Some (discoveredHead +:+ nl +:+ "{" +:+ nl
                 +:+ "  " +:+ dq "attachmentId" +:+ ": " +:+ Json.quote (a_id attachment)
                 +:+ nl +:+ "}"))
          (Some (mkActOptions ["mediaPerception"]))]).
Proof.
  intros Hqs Hok Hcommit.
  rewrite (invoke_backend_reply _ _ _ _ _ _ _ _ Hok). cbv zeta.
  rewrite Hqs. change (makeQa [] (answers reply)) with (@nil QAPair).
  rewrite Hcommit. reflexivity.
Qed.

Lemma no_questions_still_queries_witness :
  invoke catBackend catConversation "jwt" durableEvent silentRequest
  = (Returned tt,
     mkWorld (withQueries silentRequest [])
       [DescribeJson "http://x/1.png" (promptFor durableEvent silentRequest) "jwt";
        ConsoleLog "media perception qa" [] ["A cat on a mat."];
        Commit (withQueries silentRequest []);
        AgentAct
          (Some (discoveredHead +:+ nl +:+ "{" +:+ nl
                 +:+ "  " +:+ dq "attachmentId" +:+ ": " +:+ Json.quote "a1"
                 +:+ nl +:+ "}"))
          (Some (mkActOptions ["mediaPerception"]))]).
Proof.
  apply (no_questions_still_queries catBackend catConversation "jwt" durableEvent
           silentRequest catPicture "http://x/1.png" catReply).
  - reflexivity.
  - repeat split; try reflexivity; discriminate.
  - reflexivity.
Defined.

(** ** The attachment index *)

Lemma indexAttachments_snd (messages : list Message) :
  snd (indexAttachments messages)
  = flat_map (fun m => map (fun attachment => (attachment, m)) (ownAttachments m))
             messages.
Proof.
  unfold indexAttachments.
  set (owned := fun m : Message =>
                  map (fun attachment => (attachment, m)) (ownAttachments m)).
  change (flat_map owned messages)
    with (snd (@nil Attachment, @nil (Attachment * Message))
          ++ flat_map owned messages)%list.
  generalize (@nil Attachment, @nil (Attachment * Message)).
  induction messages as [|m messages IH]; intros acc; simpl.
  - by rewrite app_nil_r.
  - rewrite IH. unfold owned at 2, ownAttachments.
    destruct (attachments m) as [own|]; [|reflexivity].
    rewrite app_assoc. f_equal.
    clear IH. revert acc. induction own as [|x own IHown]; intros acc; simpl.
    + by rewrite app_nil_r.
    + rewrite IHown. simpl. by rewrite <- app_assoc.
Qed.

(** X6: the two loops of the handler list the attachments of the
    conversation in message order, skipping messages without attachments,
    and record beside each attachment a message that owns it. *)
Theorem index_in_conversation_order (messages : list Message) :
  let index := indexAttachments messages in
  fst index = flat_map ownAttachments messages /\
  map fst (snd index) = fst index /\
  forall attachment m,
    In (attachment, m) (snd index) ->
    In m messages /\
    exists own, attachments m = Some own /\ In attachment own.
Proof.
  cbv zeta. rewrite indexAttachments_fst, indexAttachments_snd.
  split; [reflexivity|]. split.
  - induction messages as [|m messages IH]; simpl; [reflexivity|].
    rewrite map_app, IH. f_equal.
    rewrite map_map. simpl. apply map_id.
  - intros attachment m Hin. apply in_flat_map in Hin as (owner & Howner & Hin).
    apply in_map_iff in Hin as (x & [= -> ->] & Hx).
    split; [done|]. unfold ownAttachments in Hx.
    destruct (attachments m) as [own|]; [|destruct Hx]. by exists own.
Qed.

Lemma find_first_match {A} (p : A -> bool) (l : list A) (x : A) :
  find p l = Some x <->
  exists before after,
    l = (before ++ x :: after)%list /\ p x = true /\
    Forall (fun y => p y = false) before.
Proof.
  induction l as [|y l IH]; simpl.
  - split; [discriminate|]. intros (before & after & Heq & _).
    by destruct before.
  - destruct (p y) eqn:Hy.
    + split.
      * intros [= ->]. by exists [], l.
      * intros ([|z before] & after & Heq & Hx & Hbefore).
        -- by injection Heq as ->.
        -- injection Heq as -> _. inversion Hbefore as [|? ? Hz _]. congruence.
    + rewrite IH. split.
      * intros (before & after & -> & Hx & Hbefore).
        exists (y :: before), after. repeat split; [done|]. by constructor.
      * intros ([|z before] & after & Heq & Hx & Hbefore).
        -- injection Heq as -> _. congruence.
        -- injection Heq as -> ->. inversion Hbefore as [|? ? _ Hrest].
           by exists before, after.
Qed.

(** X7: the handler works on the first attachment, in conversation order,
    whose id equals the requested one (a later attachment with the same id
    is never reached), and finds none exactly when no attachment of the
    conversation has that id. *)
Theorem resolve_first_match (conversation : Conversation) (attachmentId : string) :
  (forall attachment,
     resolve conversation attachmentId = Some attachment <->
     exists before after,
       conversationAttachments conversation = (before ++ attachment :: after)%list /\
       a_id attachment = attachmentId /\
       Forall (fun other => a_id other <> attachmentId) before) /\
  (resolve conversation attachmentId = None <->
   Forall (fun other => a_id other <> attachmentId)
          (conversationAttachments conversation)).
Proof.
  rewrite resolve_conversation. split.
  - intros attachment. rewrite find_first_match.
    split; intros (before & after & Heq & Hid & Hbefore); exists before, after.
    + split; [done|]. split; [by apply String.eqb_eq|].
      eapply Forall_impl; [|exact Hbefore]. intros other. by apply String.eqb_neq.
    + split; [done|]. split; [by apply String.eqb_eq|].
      eapply Forall_impl; [|exact Hbefore]. intros other. by apply String.eqb_neq.
  - rewrite Forall_forall. split.
    + intros Hnone other Hin. apply String.eqb_neq.
      apply (find_none _ _ Hnone other Hin).
    + intros Hall. destruct (find _ _) as [x|] eqn:Hfind; [|reflexivity].
      apply find_some in Hfind as [Hin Heq]. apply String.eqb_eq in Heq.
      by destruct (Hall x Hin).
Qed.

(** ** Filter, router and render *)

(** X8: cutting a type at its first '+' leaves no '+', is the identity
    exactly on the types without '+', and changes nothing when repeated. *)
Theorem typeClean_idempotent (type : string) :
  hasPlus (typeClean type) = false /\
  (typeClean type = type <-> hasPlus type = false) /\
  typeClean (typeClean type) = typeClean type.
Proof.
  destruct (typeClean_is_prefix type) as [Hplain Hcut].
  split; [exact Hplain|]. split.
  - split; [intros Heq; by rewrite <- Heq | apply typeClean_no_plus].
  - by apply typeClean_no_plus.
Qed.

(** X9: the router accepts the three image types and nothing else; every
    type the router accepts passes the availability filter, and the filter
    accepts exactly the types whose cut at the first '+' the router
    accepts. *)
Theorem router_within_filter
    (describeJson : string -> string -> string -> Error + AnswersObject)
    (type : string) :
  (route describeJson type <> None
   <-> In type ["image/jpeg"; "image/png"; "image/webp"]) /\
  (route describeJson type <> None ->
   includes (supportedVideoPerceptionTypes describeJson) (typeClean type) = true) /\
  (includes (supportedVideoPerceptionTypes describeJson) (typeClean type) = true
   <-> route describeJson (typeClean type) <> None).
Proof.
  assert (Hroute : forall t,
            route describeJson t <> None
            <-> includes (supportedVideoPerceptionTypes describeJson) t = true).
  { intros t. destruct (route_cases describeJson t) as [[-> ->]|[-> ->]];
      split; done. }
  split; [|split].
  - rewrite Hroute, includes_In. reflexivity.
  - rewrite Hroute. intros Hin.
    rewrite typeClean_no_plus; [done|].
    eapply supported_types_plain. by apply includes_In.
  - by rewrite Hroute.
Qed.


(** ** The registered backend *)



(** ** The context object *)

Lemma append_snoc (t : string) (d : ascii) (s : string) :
  t +:+ String d s = (t +:+ String d EmptyString) +:+ s.
Proof.
  induction t as [|c t IHt]; [reflexivity|].
  change (String c (t +:+ String d s)
          = String c ((t +:+ String d EmptyString) +:+ s)).
  by rewrite IHt.
Qed.

Lemma pretty_N_go_suffix (x : N) (s : string) :
  exists t, pretty_N_go x s = t +:+ s.
Proof.
  revert s. induction (N.lt_wf_0 x) as [x _ IH]; intros s.
  destruct (decide (x = 0)%N) as [->|Hx].
  - exists EmptyString. by rewrite pretty_N_go_0.
  - rewrite pretty_N_go_step by lia.
    assert (Hlt : (x `div` 10 < x)%N) by (apply N.div_lt; lia).
    destruct (IH (x `div` 10)%N Hlt (String (pretty_N_char (x `mod` 10)) s))
      as [t Ht].
    exists (t +:+ String (pretty_N_char (x `mod` 10)) EmptyString).
    rewrite Ht. apply append_snoc.
Qed.

Lemma last_char_inj (t s : string) (d c : ascii) :
  t +:+ String d EmptyString = s +:+ String c EmptyString -> d = c.
Proof.
  revert s. induction t as [|x t IH]; intros [|y s] Heq.
  - by injection Heq.
  - injection Heq as _ Hs. by destruct s.
  - injection Heq as _ Ht. by destruct t.
  - injection Heq as _ Hts. by apply IH in Hts.
Qed.

Lemma pretty_index_ends_in_digit (index : nat) :
  exists t d, pretty index = t +:+ String d EmptyString /\
              In d ["0"; "1"; "2"; "3"; "4"; "5"; "6"; "7"; "8"; "9"]%char.
Proof.
  unfold pretty, pretty_nat, pretty, pretty_N.
  destruct (decide (N.of_nat index = 0)%N) as [_|Hx].
  - exists EmptyString, "0"%char. split; [done|]. by left.
  - rewrite pretty_N_go_step by lia.
    destruct (pretty_N_go_suffix (N.of_nat index `div` 10)
                (String (pretty_N_char (N.of_nat index `mod` 10)) EmptyString))
      as [t ->].
    eexists t, _. split; [reflexivity|].
    unfold pretty_N_char. repeat case_match; simpl; tauto.
Qed.

Lemma pretty_index_not_attachmentId (index : nat) :
  pretty index <> "attachmentId".
Proof.
  destruct (pretty_index_ends_in_digit index) as (t & d & -> & Hd).
  change "attachmentId" with ("attachmentI" +:+ String "d" EmptyString).
  intros Heq. apply last_char_inj in Heq. subst d.
  simpl in Hd. repeat (destruct Hd as [Hd|Hd]; [discriminate|]). done.
Qed.

(** X12: the object of the context message has one member per pair,
    keyed by the decimal position of the pair, followed by attachmentId;
    its keys are pairwise distinct, so no pair hides another or the id. *)
Theorem discovered_members (attachmentId : string) (qa : list QAPair) :
  exists props,
    discoveredJson attachmentId qa = Json.Obj props /\
    length props = S (length qa) /\
    (forall index p, qa !! index = Some p ->
                     props !! index = Some (pretty index, qaJson p)) /\
    props !! length qa = Some ("attachmentId", Json.Str attachmentId) /\
    List.NoDup (map fst props).
Proof.
  eexists. split; [reflexivity|].
  split; [|split; [|split]].
  - rewrite length_app, length_imap. simpl. lia.
  - intros index p Hp. rewrite lookup_app_l.
    + by rewrite list_lookup_imap, Hp.
    + rewrite length_imap. by eapply lookup_lt_Some.
  - rewrite lookup_app_r; rewrite length_imap; [|lia].
    by rewrite Nat.sub_diag.
  - rewrite map_app. simpl. apply NoDup_ListNoDup, list.NoDup_app. split; [|split].
    + apply list.NoDup_alt. intros i j key Hi Hj.
      rewrite list_lookup_fmap, list_lookup_imap in Hi, Hj.
      destruct (qa !! i); [|discriminate]. destruct (qa !! j); [|discriminate].
      simpl in Hi, Hj. injection Hi as Hi. injection Hj as Hj.
      apply (inj pretty). congruence.
    + intros key Hkey Hid. apply list_elem_of_singleton in Hid as ->.
      apply list_elem_of_lookup in Hkey as [i Hi].
      rewrite list_lookup_fmap, list_lookup_imap in Hi.
      destruct (qa !! i); [|discriminate]. simpl in Hi. injection Hi as Hi.
      by destruct (pretty_index_not_attachmentId i).
    + apply list.NoDup_singleton.
Qed.
